(** * PopulateDecorator: the self-populating cache of distribucache

    A shallow embedding of [lib/decorators/PopulateDecorator.js].

    The JavaScript source is written in continuation-passing style: every
    operation takes a Node callback [cb(err, value)].  The embedding keeps
    that shape.  An operation is a function from its callback and the
    current world to an answer; the callback receives the signal and the
    world as it is at the moment the callback fires.  What the collaborators
    do (the store, the lease coordinator, the user's populate function) is
    recorded in a chronological trace, so that "was invoked", "exactly once"
    and "before" are statements about that trace. *)

From Stdlib Require Import ZArith String Ascii List.
From stdpp Require Import gmap strings list.

Local Open Scope string_scope.
Local Open Scope Z_scope.

(** ** JavaScript values and errors *)

(** The payloads the cache stores.  Numbers are restricted to the integers
    plus NaN; objects, arrays and buffers are opaque handles. *)
Inductive JsVal : Type :=
  | VUndefined
  | VNull
  | VBool (b : bool)
  | VNum (n : Z)
  | VNaN
  | VStr (s : string)
  | VObj (handle : positive).

(** ToBoolean, as used by [if (value)]. *)
Definition truthy (v : JsVal) : bool :=
  match v with
  | VUndefined | VNull | VNaN => false
  | VBool b => b
  | VNum n => negb (n =? 0)
  | VStr s => match s with EmptyString => false | String _ _ => true end
  | VObj _ => true
  end.

(** An Error object: the name of its class, its message, and the
    [inner_error] that the classes generated by common-errors carry. *)
#[warnings="-register-all"]
Inductive JsError : Type :=
  | mkError (name : string) (message : string) (inner_error : option JsError).

Definition err_name (e : JsError) : string :=
  match e with mkError n _ _ => n end.

Definition err_message (e : JsError) : string :=
  match e with mkError _ m _ => m end.

Definition err_inner (e : JsError) : option JsError :=
  match e with mkError _ _ i => i end.

(** [e.message = m]: the same object, of the same class, with a new
    message. *)
Definition set_message (m : string) (e : JsError) : JsError :=
  match e with mkError n _ i => mkError n m i end.

(** [errorHelpers.generateClass('PopulateError')] and
    [errorHelpers.generateClass('LockError')], applied as
    [new C(message, inner_error)]. *)
Definition PopulateError (message : string) (inner : JsError) : JsError :=
  mkError "PopulateError" message (Some inner).

Definition LockError (message : string) (inner : JsError) : JsError :=
  mkError "LockError" message (Some inner).

(** ** Strings *)

(** [RegExp.prototype.test] for a pattern without metacharacters: does
    [pat] occur somewhere in [s]? *)
Fixpoint includes (pat s : string) : bool :=
  if String.prefix pat s then true
  else match s with
       | EmptyString => false
       | String _ s' => includes pat s'
       end.

(** The pattern of the literal [/Exceeded max retry count/]. *)
Definition max_retry_pattern : string := "Exceeded max retry count".

(** The double-quote character of the message built on a populate failure. *)
Definition dquote : string := String (ascii_of_nat 34) EmptyString.

(** ** Signals, events and the world *)

(** What a Node callback is called with: [cb(err)] or [cb(null, value)].
    [cb(null)] passes no value, which the callee reads as [undefined]. *)
Inductive Signal : Type :=
  | SigErr (e : JsError)
  | SigOk (v : JsVal).

Definition is_ok (s : Signal) : bool :=
  match s with SigOk _ => true | SigErr _ => false end.

Inductive Event : Type :=
  | EvCacheGet (key : string)
  | EvCacheSet (key : string) (v : JsVal)
  | EvUserPopulate (key : string)
  | EvLeaseAcquire (name : string)
  | EvLeaseRelease (name : string)
  | EvErrorEmitted (e : JsError).

Record World : Type := mkWorld {
  store : gmap string JsVal;   (* the underlying cache store *)
  held : gset string;          (* the leases currently held, fleet-wide *)
  trace : list Event           (* what has happened so far, oldest first *)
}.

Definition log (ev : Event) (w : World) : World :=
  {| store := store w; held := held w; trace := trace w ++ [ev] |}.

Definition write (key : string) (v : JsVal) (w : World) : World :=
  {| store := <[key := v]> (store w); held := held w; trace := trace w |}.

Definition take_lease (name : string) (w : World) : World :=
  {| store := store w; held := {[name]} ∪ held w; trace := trace w |}.

Definition drop_lease (name : string) (w : World) : World :=
  {| store := store w; held := held w ∖ {[name]}; trace := trace w |}.

Definition Callback (R : Type) : Type := Signal → World → R.

(** ** The collaborators *)

(** How one call of the user's populate function behaves: it throws an
    Error before calling back, it calls back after [t] milliseconds with
    [cb(err)] or [cb(null, value)], or it never calls back. *)
Inductive Behaviour : Type :=
  | Throws (e : JsError)
  | Responds (t : Z) (s : Signal)
  | Silent.

(** The answer of the lease coordinator (redis-lockr) to an acquisition:
    [critical(null, unlock)] or [critical(err)]. *)
Inductive Reply : Type :=
  | Granted
  | Denied (e : JsError).

Record Env : Type := mkEnv {
  nsp : string;                                   (* this._nsp *)
  populateTimeout : Z;                            (* this._config.populateTimeout *)
  leaseExpiresIn : Z;                             (* the lifetime given to lockr *)
  config_populate : string → Behaviour;           (* this._config.populate *)
  get_fault : string → option JsError;            (* a failing store read *)
  set_fault : string → JsVal → option JsError;    (* a failing store write *)
  coordinator : string → gset string → Reply;     (* this._lease *)
  timeout_message : string
}.

(** When the guarded callback is reached: synchronously (inside the call
    that received it), after [t] milliseconds, or never. *)
Inductive Arrival : Type :=
  | Sync (s : Signal)
  | After (t : Z) (s : Signal)
  | Never.

(** ** The operations *)

Section Operations.

Context {R : Type}.
Variable env : Env.

(** [async.waterfall([first, second], cb)]: run [first]; an error goes
    straight to [cb], a value is handed to [second], whose callback is
    [cb]. *)
Definition waterfall
    (first : Callback R → World → R)
    (second : JsVal → Callback R → World → R)
    (cb : Callback R) : World → R :=
  first (fun s =>
    match s with
    | SigErr err => cb (SigErr err)
    | SigOk value => second value cb
    end).

(** Modelled from the spec: the [get] primitive of the underlying cache
    store, [this._cache.get] (the Cache class is not among the sources).
    "get(key) -> (value | empty)": the stored value, or [null] when there
    is none; a failing read reports the store's own error. *)
Definition cache_get (key : string) (cb : Callback R) : World → R :=
  fun w =>
    let w := log (EvCacheGet key) w in
    match get_fault env key with
    | Some err => cb (SigErr err) w
    | None => cb (SigOk (default VNull (store w !! key))) w
    end.

(** Modelled from the spec: [this.set], inherited from BaseDecorator (not
    among the sources), which hands over to the [set] primitive of the
    underlying store.  "On success, write value to the underlying cache
    store via its set primitive; propagate the store's own failure, if
    any, as-is", and the populated value is what the caller gets back. *)
Definition set (key : string) (value : JsVal) (cb : Callback R) : World → R :=
  fun w =>
    let w := log (EvCacheSet key value) w in
    match set_fault env key value with
    | Some err => cb (SigErr err) w
    | None => cb (SigOk value) (write key value w)
    end.

(** What the Timeout Guard reports when the deadline passes first. *)
Definition TimeoutError : JsError :=
  mkError "TimeoutError" (timeout_message env) None.

(** Modelled from the spec: [completeWithin] of [lib/util] (not among the
    sources), the Timeout Guard.  "If the underlying operation completes
    within d, its result (success or failure) is forwarded unchanged.  If
    d elapses first, the guard fires a completion carrying a
    TimeoutError".  A callback that is called synchronously, before
    control is back at the event loop, is always in time. *)
Definition completeWithin (d : Z) (cb : Callback R) : Arrival → World → R :=
  fun a =>
    match a with
    | Sync s => cb s
    | After t s => if t <=? d then cb s else cb (SigErr TimeoutError)
    | Never => cb (SigErr TimeoutError)
    end.

(** [PopulateDecorator.prototype.populate] *)
Definition populate (key : string) (cb : Callback R) : World → R :=
  waterfall
    (fun cb w =>
       let cb := completeWithin (populateTimeout env) cb in
       (* try { self._config.populate(key, cb); } *)
       let w := log (EvUserPopulate key) w in
       match config_populate env key with
       | Responds t s => cb (After t s) w
       | Silent => cb Never w
       | Throws e =>
           (* catch (e) *)
           let e := set_message
                      ("populate threw an error; cause: " +:+ err_message e)
                      e in
           cb (Sync (SigErr e)) w
       end)
    (set key)
    cb.

(** [PopulateDecorator.prototype.get] *)
Definition get (key : string) (cb : Callback R) : World → R :=
  waterfall
    (cache_get key)
    (fun value cb =>
       if truthy value then cb (SigOk value)
       else populate key cb)
    cb.

(** The releaser that the coordinator hands to [critical]. *)
Definition unlock (name : string) (w : World) : World :=
  drop_lease name (log (EvLeaseRelease name) w).

(** [this._lease(name, critical)]: the coordinator either grants the
    lease and calls [critical(null, unlock)], or calls [critical(err)]. *)
Definition lease (name : string)
    (critical : option JsError → (World → World) → World → R) : World → R :=
  fun w =>
    let w := log (EvLeaseAcquire name) w in
    match coordinator env name (held w) with
    | Granted => critical None (unlock name) (take_lease name w)
    | Denied err => critical (Some err) (fun w => w) w
    end.

(** [PopulateDecorator.prototype.leasedPopulate] *)
Definition leasedPopulate (key : string) (cb : Callback R) : World → R :=
  let lockKey := nsp env +:+ key in
  let critical (err : option JsError) (unlock : World → World) : World → R :=
    match err with
    | Some err =>
        let isLocked := includes max_retry_pattern (err_message err) in
        if isLocked then cb (SigOk VUndefined)
        else cb (SigErr (LockError
                           ("could not aquire lock for: " +:+ lockKey) err))
    | None =>
        populate key (fun s =>
          match s with
          | SigErr err =>
              cb (SigErr (PopulateError
                            ("failed to populate " +:+ dquote +:+ lockKey
                               +:+ dquote) err))
          | SigOk value => fun w => cb (SigOk value) (unlock w)
          end)
    end in
  lease lockKey critical.

End Operations.

(** Modelled from the spec: [this._emitError] of BaseDecorator (not among
    the sources), the process-wide error sink: an error is emitted as an
    error event, a success leaves no mark. *)
Definition _emitError : Callback World :=
  fun s w =>
    match s with
    | SigErr err => log (EvErrorEmitted err) w
    | SigOk _ => w
    end.

(** [PopulateDecorator.prototype._onStaleEvent] *)
Definition _onStaleEvent (env : Env) (key : string) : World → World :=
  leasedPopulate env key _emitError.

(** [this.on('stale', this._onStaleEvent.bind(this))], the subscription
    made by the constructor: every stale event that is delivered runs the
    handler with the key it carries.  Here the events are delivered one
    after another, each one handled before the next arrives. *)
Definition onStaleEvents (env : Env) (keys : list string) (w : World) : World :=
  foldl (fun w key => _onStaleEvent env key w) w keys.

(** ** Observing a run *)

(** Running an operation to the point where its callback fires: the signal
    it fires with and the world at that moment. *)
Definition outcome : Callback (Signal * World) := fun s w => (s, w).

Definition is_user_populate (key : string) (ev : Event) : bool :=
  match ev with EvUserPopulate k => bool_decide (k = key) | _ => false end.

Definition is_cache_set (key : string) (ev : Event) : bool :=
  match ev with EvCacheSet k _ => bool_decide (k = key) | _ => false end.

Definition is_any_cache_set (ev : Event) : bool :=
  match ev with EvCacheSet _ _ => true | _ => false end.

Definition is_acquire (ev : Event) : bool :=
  match ev with EvLeaseAcquire _ => true | _ => false end.

Definition is_release (ev : Event) : bool :=
  match ev with EvLeaseRelease _ => true | _ => false end.

Definition count (p : Event → bool) (w : World) : nat :=
  length (List.filter p (trace w)).

(** How often the user's populate function has been called for [key]. *)
Definition populate_calls (key : string) (w : World) : nat :=
  count (is_user_populate key) w.

(** How often the store's [set] has been called, for any key. *)
Definition store_writes (w : World) : nat := count is_any_cache_set w.

(** How often a lease was asked for, and how often one was released. *)
Definition lease_requests (w : World) : nat := count is_acquire w.
Definition lease_releases (w : World) : nat := count is_release w.

(** The errors that reached the error sink, oldest first. *)
Definition emitted (w : World) : list JsError :=
  omap (fun ev => match ev with EvErrorEmitted e => Some e | _ => None end)
       (trace w).

(** ** Sample collaborators, used to run the operations on concrete inputs *)

Definition empty_world : World := mkWorld ∅ ∅ [].

(** A world whose store holds exactly one entry. *)
Definition world_with (key : string) (v : JsVal) : World :=
  mkWorld {[key := v]} ∅ [].

(** A world in which some other process holds the lease [name]. *)
Definition world_leased (name : string) : World :=
  mkWorld ∅ {[name]} [].

Definition boom : JsError := mkError "Error" "boom" None.

(** A coordinator in the manner of redis-lockr: a lease that is held is
    refused, after the retries are used up, with the message that
    [leasedPopulate] looks for. *)
Definition lockr (name : string) (held : gset string) : Reply :=
  if bool_decide (name ∈ held)
  then Denied (mkError "Error" "Exceeded max retry count" None)
  else Granted.

(** A coordinator that cannot be reached. *)
Definition unreachable (name : string) (held : gset string) : Reply :=
  Denied (mkError "Error" "connect ECONNREFUSED" None).

(** A decorator with the default configuration over a healthy store. *)
Definition sample_env (user : string → Behaviour)
    (coord : string → gset string → Reply) : Env :=
  {| nsp := "cache:";
     populateTimeout := 30000;
     leaseExpiresIn := 300;
     config_populate := user;
     get_fault := fun _ => None;
     set_fault := fun _ _ => None;
     coordinator := coord;
     timeout_message := "timed out" |}.

(** * Properties *)

(** Case analysis on everything the goal matches on. *)
Ltac split_cases :=
  repeat match goal with
         | |- context [match ?x with _ => _ end] => destruct x eqn:?
         end.

(** ** Strings *)

Lemma append_nil (b : string) : EmptyString +:+ b = b.
Proof. reflexivity. Qed.

Lemma append_cons (c : ascii) (a b : string) :
  String c a +:+ b = String c (a +:+ b).
Proof. reflexivity. Qed.

Lemma prefix_spec (p s : string) :
  String.prefix p s = true ↔ ∃ b, s = p +:+ b.
Proof.
  revert s. induction p as [|c p IH]; intros s.
  - destruct s; simpl; (split; [intros _; eexists; reflexivity | done]).
  - destruct s as [|d s]; simpl.
    + split; [done | intros [b Hb]; discriminate].
    + destruct (ascii_dec c d) as [->|Hne].
      * rewrite IH.
        split; intros [b Hb]; exists b; rewrite append_cons in *; congruence.
      * split; [done | intros [b Hb]; rewrite append_cons in Hb; congruence].
Qed.

Lemma includes_unfold (p s : string) :
  includes p s
  = if String.prefix p s then true
    else match s with
         | EmptyString => false
         | String _ s' => includes p s'
         end.
Proof. by destruct s. Qed.

Lemma includes_spec (p s : string) :
  includes p s = true ↔ ∃ a b, s = a +:+ p +:+ b.
Proof.
  split.
  - induction s as [|c s IH]; rewrite includes_unfold;
      destruct (String.prefix p _) eqn:Hp;
      try (intros _; apply prefix_spec in Hp as [b Hb];
           by exists EmptyString, b).
    + done.
    + intros [a [b Hab]]%IH. exists (String c a), b.
      rewrite append_cons. congruence.
  - intros [a [b ->]]. induction a as [|c a IH]; rewrite includes_unfold.
    + rewrite append_nil.
      assert (String.prefix p (p +:+ b) = true) as ->
        by (apply prefix_spec; eauto).
      done.
    + rewrite append_cons, IH. by destruct (String.prefix _ _).
Qed.

Lemma includes_infix (a p b : string) : includes p (a +:+ p +:+ b) = true.
Proof. apply includes_spec. eauto. Qed.

(** ** The trace *)

Lemma count_log (p : Event → bool) (ev : Event) (w : World) :
  count p (log ev w) = (count p w + (if p ev then 1 else 0))%nat.
Proof.
  unfold count, log; simpl. rewrite List.filter_app, length_app; simpl.
  by destruct (p ev).
Qed.

Lemma count_write p key v w : count p (write key v w) = count p w.
Proof. reflexivity. Qed.

Lemma count_take_lease p name w : count p (take_lease name w) = count p w.
Proof. reflexivity. Qed.

Lemma count_drop_lease p name w : count p (drop_lease name w) = count p w.
Proof. reflexivity. Qed.

Lemma is_user_populate_same key : is_user_populate key (EvUserPopulate key) = true.
Proof. simpl. by apply bool_decide_eq_true. Qed.

Lemma emitted_log ev w :
  emitted (log ev w)
  = (emitted w ++ match ev with EvErrorEmitted e => [e] | _ => [] end)%list.
Proof.
  unfold emitted, log; simpl. rewrite omap_app. by destruct ev.
Qed.

(** ** Every operation fires its callback exactly once *)

Lemma set_once {R} env key v (cb : Callback R) w :
  set env key v cb w
  = cb (fst (set env key v outcome w)) (snd (set env key v outcome w)).
Proof. unfold set, outcome. by destruct (set_fault env key v). Qed.

Lemma populate_once {R} env key (cb : Callback R) w :
  populate env key cb w
  = cb (fst (populate env key outcome w)) (snd (populate env key outcome w)).
Proof.
  unfold populate, waterfall, completeWithin, set, outcome.
  split_cases; reflexivity.
Qed.

Lemma get_once {R} env key (cb : Callback R) w :
  get env key cb w
  = cb (fst (get env key outcome w)) (snd (get env key outcome w)).
Proof.
  unfold get, waterfall, cache_get.
  destruct (get_fault env key); [reflexivity |].
  destruct (truthy _); [reflexivity |].
  apply populate_once.
Qed.

Lemma leasedPopulate_once {R} env key (cb : Callback R) w :
  leasedPopulate env key cb w
  = cb (fst (leasedPopulate env key outcome w))
       (snd (leasedPopulate env key outcome w)).
Proof.
  unfold leasedPopulate, lease.
  destruct (coordinator env _ _) as [|err].
  - set (w0 := take_lease _ _).
    rewrite (populate_once env key (λ s, match s with
                                         | SigErr err => cb _
                                         | SigOk value => _
                                         end)).
    rewrite (populate_once env key (λ s, match s with
                                         | SigErr err => outcome _
                                         | SigOk value => _
                                         end)).
    by destruct (fst (populate env key outcome w0)).
  - by destruct (includes _ _).
Qed.

(** ** What populate leaves alone *)

(** The populator never touches a lease: the set of held leases and the
    numbers of acquisitions and releases are what they were. *)
Lemma populate_leases env key w :
  let w' := snd (populate env key outcome w) in
  held w' = held w
  ∧ lease_requests w' = lease_requests w
  ∧ lease_releases w' = lease_releases w.
Proof.
  unfold populate, waterfall, completeWithin, set, outcome,
    lease_requests, lease_releases.
  split_cases; simpl; rewrite ?count_write, ?count_log; simpl;
    repeat split; lia.
Qed.

(** The populator calls the user's function exactly once, whatever comes
    of it. *)
Lemma populate_calls_user_once env key w :
  populate_calls key (snd (populate env key outcome w))
  = S (populate_calls key w).
Proof.
  unfold populate, waterfall, completeWithin, set, outcome, populate_calls.
  split_cases; simpl;
    rewrite ?count_write, ?count_log, ?is_user_populate_same; simpl; lia.
Qed.


(** ** The lease-guarded populator: a refused lease *)

Lemma append_empty_r (s : string) : s +:+ EmptyString = s.
Proof. induction s as [|c s IH]; [done |]. by rewrite append_cons, IH. Qed.

Lemma includes_suffix (a p : string) : ∃ x y, a +:+ p = x +:+ p +:+ y.
Proof. exists a, EmptyString. by rewrite append_empty_r. Qed.

(** A refused lease takes [leasedPopulate] to one of two ends, chosen by
    the message of the coordinator's error alone; in both, nothing has
    happened but the request for the lease. *)
Lemma leasedPopulate_denied {R} env key (cb : Callback R) w err :
  coordinator env (nsp env +:+ key) (held w) = Denied err →
  leasedPopulate env key cb w
  = cb (if includes max_retry_pattern (err_message err)
        then SigOk VUndefined
        else SigErr (LockError
                       ("could not aquire lock for: " +:+ nsp env +:+ key)
                       err))
       (log (EvLeaseAcquire (nsp env +:+ key)) w).
Proof.
  intros Hdenied. unfold leasedPopulate, lease. simpl.
  rewrite Hdenied. by destruct (includes _ _).
Qed.

Lemma request_is_no_populate k name w :
  populate_calls k (log (EvLeaseAcquire name) w) = populate_calls k w.
Proof. unfold populate_calls. rewrite count_log. simpl. lia. Qed.

Lemma request_is_no_write name w :
  store_writes (log (EvLeaseAcquire name) w) = store_writes w.
Proof. unfold store_writes. rewrite count_log. simpl. lia. Qed.

(** C1.  When the coordinator refuses the lease with an error whose
    message carries "Exceeded max retry count" (the lease is held by
    another process), [leasedPopulate] fires its callback once, with no
    error and no value, in a world where nothing has happened but the
    request for the lease: the user's populate function has not been
    called, the store's set has not been called, and the store is what it
    was. *)
Theorem leasedPopulate_contention_is_noop env key w err :
  coordinator env (nsp env +:+ key) (held w) = Denied err →
  includes max_retry_pattern (err_message err) = true →
  let w' := log (EvLeaseAcquire (nsp env +:+ key)) w in
  (∀ R (cb : Callback R),
      leasedPopulate env key cb w = cb (SigOk VUndefined) w')
  ∧ (∀ k, populate_calls k w' = populate_calls k w)
  ∧ store_writes w' = store_writes w
  ∧ store w' = store w.
Proof.
  intros Hdenied Hheld w'. repeat split.
  - intros R cb. rewrite (leasedPopulate_denied env key cb w err Hdenied).
    by rewrite Hheld.
  - intros k. apply request_is_no_populate.
  - apply request_is_no_write.
Qed.

Lemma leasedPopulate_contention_is_noop_witness :
  let env := sample_env (λ _, Responds 5 (SigOk (VStr "v1"))) lockr in
  let w := world_leased "cache:k" in
  leasedPopulate env "k" outcome w
  = (SigOk VUndefined, log (EvLeaseAcquire "cache:k") w)
  ∧ store_writes (log (EvLeaseAcquire "cache:k") w) = store_writes w.
Proof.
  intros env w.
  destruct (leasedPopulate_contention_is_noop env "k" w
              (mkError "Error" "Exceeded max retry count" None))
    as (Hcb & _ & Hwrites & _).
  - vm_compute. reflexivity.
  - vm_compute. reflexivity.
  - split; [apply (Hcb _ outcome) | exact Hwrites].
Defined.

(** C4.  When the coordinator refuses the lease with an error whose
    message does not carry "Exceeded max retry count" (an infrastructure
    failure), [leasedPopulate] signals a LockError that wraps that error
    and names the lease in its message; the user's populate function has
    not been called and the store is what it was. *)
Theorem leasedPopulate_lock_failure env key w err :
  coordinator env (nsp env +:+ key) (held w) = Denied err →
  includes max_retry_pattern (err_message err) = false →
  let lockKey := nsp env +:+ key in
  let w' := log (EvLeaseAcquire lockKey) w in
  let failure := LockError ("could not aquire lock for: " +:+ lockKey) err in
  (∀ R (cb : Callback R),
      leasedPopulate env key cb w = cb (SigErr failure) w')
  ∧ err_name failure = "LockError"
  ∧ err_inner failure = Some err
  ∧ (∃ a b, err_message failure = a +:+ lockKey +:+ b)
  ∧ (∀ k, populate_calls k w' = populate_calls k w)
  ∧ store_writes w' = store_writes w
  ∧ store w' = store w.
Proof.
  intros Hdenied Hother lockKey w' failure. repeat split.
  - intros R cb. rewrite (leasedPopulate_denied env key cb w err Hdenied).
    by rewrite Hother.
  - apply includes_suffix.
  - intros k. apply request_is_no_populate.
  - apply request_is_no_write.
Qed.

Lemma leasedPopulate_lock_failure_witness :
  let env := sample_env (λ _, Responds 5 (SigOk (VStr "v1"))) unreachable in
  let w := world_with "k" (VStr "v0") in
  leasedPopulate env "k" outcome w
  = (SigErr (mkError "LockError" "could not aquire lock for: cache:k"
               (Some (mkError "Error" "connect ECONNREFUSED" None))),
     log (EvLeaseAcquire "cache:k") w)
  ∧ store (log (EvLeaseAcquire "cache:k") w) !! "k" = Some (VStr "v0").
Proof.
  intros env w.
  destruct (leasedPopulate_lock_failure env "k" w
              (mkError "Error" "connect ECONNREFUSED" None))
    as (Hcb & _ & _ & _ & _ & _ & Hstore).
  - vm_compute. reflexivity.
  - vm_compute. reflexivity.
  - split; [apply (Hcb _ outcome) |].
    change (store (log (EvLeaseAcquire (nsp env +:+ "k")) w) !! "k"
            = Some (VStr "v0")).
    rewrite Hstore. vm_compute. reflexivity.
Defined.

(** C9.  A refused lease counts as benign contention (the callback gets
    neither error nor value) exactly when the message of the coordinator's
    error contains "Exceeded max retry count"; every other refusal is
    signalled as a LockError around that error. *)
Theorem leasedPopulate_contention_iff_pattern env key w err :
  coordinator env (nsp env +:+ key) (held w) = Denied err →
  let matches :=
    ∃ a b, err_message err = a +:+ "Exceeded max retry count" +:+ b in
  let s := fst (leasedPopulate env key outcome w) in
  (matches ↔ s = SigOk VUndefined)
  ∧ (¬ matches →
     s = SigErr (LockError
                   ("could not aquire lock for: " +:+ nsp env +:+ key) err)).
Proof.
  intros Hdenied matches s. subst s.
  rewrite (leasedPopulate_denied env key outcome w err Hdenied).
  unfold outcome; simpl.
  destruct (includes max_retry_pattern (err_message err)) eqn:Hm.
  - apply includes_spec in Hm. split; [done |]. intros Hno. by destruct Hno.
  - assert (¬ matches) as Hno.
    { intros Hyes. apply includes_spec in Hyes.
      unfold max_retry_pattern in Hm. congruence. }
    split; [| done]. split; [done | discriminate].
Qed.

Lemma leasedPopulate_contention_iff_pattern_witness :
  fst (leasedPopulate (sample_env (λ _, Silent) lockr) "k" outcome
         (world_leased "cache:k"))
  = SigOk VUndefined.
Proof.
  apply (leasedPopulate_contention_iff_pattern
           (sample_env (λ _, Silent) lockr) "k" (world_leased "cache:k")
           (mkError "Error" "Exceeded max retry count" None)).
  - vm_compute. reflexivity.
  - by exists EmptyString, EmptyString.
Defined.

(** With a coordinator in the manner of redis-lockr, a stale event for a
    key whose lease another process holds is a no-op: this is the second
    of two repopulations that meet on one key. *)
Lemma leasedPopulate_while_held {R} env key (cb : Callback R) w :
  coordinator env = lockr →
  nsp env +:+ key ∈ held w →
  leasedPopulate env key cb w
  = cb (SigOk VUndefined) (log (EvLeaseAcquire (nsp env +:+ key)) w).
Proof.
  intros Hlockr Hheld.
  rewrite (leasedPopulate_denied env key cb w
             (mkError "Error" "Exceeded max retry count" None)).
  - reflexivity.
  - rewrite Hlockr. unfold lockr. simpl.
    by rewrite bool_decide_eq_true_2.
Qed.

(** ** The lease-guarded populator: a granted lease *)

(** With the lease granted, [leasedPopulate] runs the populator once and
    goes on from its signal: a failure is wrapped and signalled as it is, a
    value is signalled after the releaser has run. *)
Lemma leasedPopulate_granted {R} env key (cb : Callback R) w :
  coordinator env (nsp env +:+ key) (held w) = Granted →
  let lockKey := nsp env +:+ key in
  let populated :=
    populate env key outcome
      (take_lease lockKey (log (EvLeaseAcquire lockKey) w)) in
  leasedPopulate env key cb w
  = match fst populated with
    | SigErr cause =>
        cb (SigErr (PopulateError
                      ("failed to populate " +:+ dquote +:+ lockKey +:+ dquote)
                      cause))
           (snd populated)
    | SigOk value => cb (SigOk value) (unlock lockKey (snd populated))
    end.
Proof.
  intros Hgranted lockKey populated.
  unfold leasedPopulate, lease. simpl. rewrite Hgranted.
  rewrite populate_once. fold lockKey populated.
  by destruct (fst populated).
Qed.

Lemma unlock_releases name w :
  lease_releases (unlock name w) = S (lease_releases w).
Proof.
  unfold unlock, lease_releases. rewrite count_drop_lease, count_log.
  simpl. lia.
Qed.

Lemma unlock_last name w :
  last (trace (unlock name w)) = Some (EvLeaseRelease name).
Proof. unfold unlock. simpl. apply last_snoc. Qed.

Lemma unlock_not_held name w : name ∉ held (unlock name w).
Proof.
  unfold unlock. simpl. intros [_ Hnot]%elem_of_difference.
  by apply Hnot, elem_of_singleton_2.
Qed.

Lemma request_is_no_release name w :
  lease_releases (take_lease name (log (EvLeaseAcquire name) w))
  = lease_releases w.
Proof.
  unfold lease_releases. rewrite count_take_lease, count_log. simpl. lia.
Qed.

(** C2.  With the lease granted, the releaser runs if and only if the
    populator succeeds.  On success the callback fires with the populated
    value in a world whose latest event is the release, so the release
    comes before the signal, and the lease is no longer held; on failure
    no release has happened and the lease is still held when the callback
    fires. *)
Theorem leasedPopulate_releases_iff_populated env key w :
  coordinator env (nsp env +:+ key) (held w) = Granted →
  let lockKey := nsp env +:+ key in
  let populated :=
    populate env key outcome
      (take_lease lockKey (log (EvLeaseAcquire lockKey) w)) in
  let w' := snd (leasedPopulate env key outcome w) in
  (lease_releases w' = S (lease_releases w) ↔ is_ok (fst populated) = true)
  ∧ (is_ok (fst populated) = false →
     lease_releases w' = lease_releases w ∧ lockKey ∈ held w')
  ∧ (∀ v, fst populated = SigOk v →
       (∀ R (cb : Callback R),
           leasedPopulate env key cb w
           = cb (SigOk v) (unlock lockKey (snd populated)))
       ∧ last (trace w') = Some (EvLeaseRelease lockKey)
       ∧ lockKey ∉ held w').
Proof.
  intros Hgranted lockKey populated w'.
  pose proof (populate_leases env key
                (take_lease lockKey (log (EvLeaseAcquire lockKey) w)))
    as (Hheld & _ & Hrel).
  fold populated in Hheld, Hrel.
  rewrite request_is_no_release in Hrel.
  assert (∀ R (cb : Callback R),
             leasedPopulate env key cb w
             = match fst populated with
               | SigErr cause =>
                   cb (SigErr (PopulateError
                                 ("failed to populate " +:+ dquote +:+ lockKey
                                    +:+ dquote) cause))
                      (snd populated)
               | SigOk value => cb (SigOk value) (unlock lockKey (snd populated))
               end) as Hrun
    by (intros R cb; by apply leasedPopulate_granted).
  subst w'. rewrite (Hrun _ outcome).
  destruct (fst populated) as [cause|value] eqn:Hsig; simpl.
  - rewrite Hrel. split; [| split].
    + split; [lia | done].
    + intros _. split; [done |].
      rewrite Hheld. simpl. apply elem_of_union_l, elem_of_singleton_2.
      reflexivity.
    + done.
  - rewrite unlock_releases, Hrel. split; [| split].
    + done.
    + done.
    + intros v' [= <-]. split; [| split].
      * intros R cb. apply Hrun.
      * apply unlock_last.
      * apply unlock_not_held.
Qed.

Lemma leasedPopulate_releases_iff_populated_witness :
  let env := sample_env (λ _, Responds 5 (SigOk (VStr "v1"))) lockr in
  trace (snd (leasedPopulate env "k" outcome empty_world))
  = [EvLeaseAcquire "cache:k"; EvUserPopulate "k";
     EvCacheSet "k" (VStr "v1"); EvLeaseRelease "cache:k"]
  ∧ lease_releases (snd (leasedPopulate env "k" outcome empty_world)) = 1%nat.
Proof.
  intros env.
  destruct (leasedPopulate_releases_iff_populated env "k" empty_world)
    as (Hiff & _ & _).
  - vm_compute. reflexivity.
  - split; [vm_compute; reflexivity |].
    apply Hiff. vm_compute. reflexivity.
Defined.

(** C3.  With the lease granted, whatever makes the populator fail,
    [leasedPopulate] signals a PopulateError that wraps that cause and
    whose message names the lease, [nsp + key]. *)
Theorem leasedPopulate_populate_failure env key w cause w1 :
  coordinator env (nsp env +:+ key) (held w) = Granted →
  let lockKey := nsp env +:+ key in
  populate env key outcome
    (take_lease lockKey (log (EvLeaseAcquire lockKey) w))
  = (SigErr cause, w1) →
  let failure :=
    PopulateError ("failed to populate " +:+ dquote +:+ lockKey +:+ dquote)
      cause in
  (∀ R (cb : Callback R),
      leasedPopulate env key cb w = cb (SigErr failure) w1)
  ∧ err_name failure = "PopulateError"
  ∧ err_inner failure = Some cause
  ∧ (∃ a b, err_message failure = a +:+ lockKey +:+ b).
Proof.
  intros Hgranted lockKey Hfails failure. repeat split.
  - intros R cb. rewrite (leasedPopulate_granted env key cb w Hgranted).
    fold lockKey. by rewrite Hfails.
  - by exists ("failed to populate " +:+ dquote), dquote.
Qed.

Lemma leasedPopulate_populate_failure_witness :
  let env := sample_env (λ _, Responds 5 (SigErr boom)) lockr in
  fst (leasedPopulate env "k" outcome empty_world)
  = SigErr (mkError "PopulateError"
              ("failed to populate " +:+ dquote +:+ "cache:k" +:+ dquote)
              (Some boom)).
Proof.
  intros env.
  destruct (leasedPopulate_populate_failure env "k" empty_world boom
              (take_lease "cache:k"
                 (log (EvUserPopulate "k")
                    (log (EvLeaseAcquire "cache:k") empty_world))))
    as (Hcb & _).
  - vm_compute. reflexivity.
  - vm_compute. reflexivity.
  - by rewrite (Hcb _ outcome).
Defined.

(** ** The populator and a throwing populate function *)

(** C5, as the specification has it, fails.  With a populate function
    that throws [Error("boom")], [populate("user:42")] hands its callback
    an error of class Error, no PopulateError, whose message does not
    carry the key; so it is not true that every thrown error comes out as
    a PopulateError that records the key and the cause. *)
Lemma populate_throw_is_not_rewrapped :
  fst (populate (sample_env (λ _, Throws boom) lockr) "user:42" outcome
         empty_world)
  = SigErr (mkError "Error" "populate threw an error; cause: boom" None)
  ∧ includes "user:42" "populate threw an error; cause: boom" = false
  ∧ ¬ (∀ env key e w,
          config_populate env key = Throws e →
          ∃ e', fst (populate env key outcome w) = SigErr e'
                ∧ err_name e' = "PopulateError"
                ∧ (∃ a b, err_message e' = a +:+ key +:+ b)
                ∧ (∃ a b, err_message e' = a +:+ err_message e +:+ b)).
Proof.
  split; [vm_compute; reflexivity |].
  split; [vm_compute; reflexivity |].
  intros Hclaim.
  destruct (Hclaim (sample_env (λ _, Throws boom) lockr) "user:42" boom
              empty_world eq_refl)
    as (e' & Hsig & Hname & _).
  vm_compute in Hsig. injection Hsig as <-.
  vm_compute in Hname. discriminate Hname.
Qed.

(** C5, amended.  An Error that the user's populate function throws
    inside [populate] before it has called its callback is caught and
    handed to the callback as the same error, of the class it had and with
    the inner error it had, its message now
    "populate threw an error; cause: " followed by the original message;
    the callback fires once, and the store has not been written. *)
Theorem populate_catches_throw env key e w :
  config_populate env key = Throws e →
  let caught :=
    set_message ("populate threw an error; cause: " +:+ err_message e) e in
  let w' := log (EvUserPopulate key) w in
  (∀ R (cb : Callback R), populate env key cb w = cb (SigErr caught) w')
  ∧ err_name caught = err_name e
  ∧ err_inner caught = err_inner e
  ∧ err_message caught
    = "populate threw an error; cause: " +:+ err_message e
  ∧ store_writes w' = store_writes w
  ∧ store w' = store w.
Proof.
  intros Hthrows caught w'. split; [| split; [| split; [| split; [| split]]]].
  - intros R cb. unfold populate, waterfall, completeWithin.
    by rewrite Hthrows.
  - by destruct e.
  - by destruct e.
  - by destruct e.
  - unfold store_writes. subst w'. rewrite count_log. simpl. lia.
  - reflexivity.
Qed.

Lemma populate_catches_throw_witness :
  populate (sample_env (λ _, Throws boom) lockr) "user:42" outcome empty_world
  = (SigErr (mkError "Error" "populate threw an error; cause: boom" None),
     log (EvUserPopulate "user:42") empty_world).
Proof.
  destruct (populate_catches_throw (sample_env (λ _, Throws boom) lockr)
              "user:42" boom empty_world)
    as (Hcb & _).
  - reflexivity.
  - apply (Hcb _ outcome).
Defined.

(** ** The facade: get *)

(** After a successful read, [get] answers with the stored value if that
    value is truthy and hands over to the populator otherwise; a key
    without an entry reads as [null]. *)
Lemma get_read_ok {R} env key (cb : Callback R) w :
  get_fault env key = None →
  get env key cb w
  = if truthy (default VNull (store w !! key))
    then cb (SigOk (default VNull (store w !! key))) (log (EvCacheGet key) w)
    else populate env key cb (log (EvCacheGet key) w).
Proof.
  intros Hread. unfold get, waterfall, cache_get. rewrite Hread.
  simpl. by destruct (truthy _).
Qed.

Lemma read_is_no_populate k key w :
  populate_calls k (log (EvCacheGet key) w) = populate_calls k w.
Proof. unfold populate_calls. rewrite count_log. simpl. lia. Qed.

Lemma read_is_no_request key w :
  lease_requests (log (EvCacheGet key) w) = lease_requests w.
Proof. unfold lease_requests. rewrite count_log. simpl. lia. Qed.

(** The populator, given a value in time and a store that takes it. *)
Lemma populate_success {R} env key (cb : Callback R) w t v :
  config_populate env key = Responds t (SigOk v) →
  t ≤ populateTimeout env →
  set_fault env key v = None →
  populate env key cb w
  = cb (SigOk v)
       (write key v (log (EvCacheSet key v) (log (EvUserPopulate key) w))).
Proof.
  intros Hresponds Hintime Hset.
  unfold populate, waterfall, completeWithin, set.
  rewrite Hresponds. apply Z.leb_le in Hintime. rewrite Hintime.
  by rewrite Hset.
Qed.

Lemma is_cache_set_same key v : is_cache_set key (EvCacheSet key v) = true.
Proof. simpl. by apply bool_decide_eq_true. Qed.

(** C6.  For a key with no entry in the store, [get] calls the user's
    populate function exactly once; and when that function yields a value
    in time and the store takes it, [get] answers with that value, the
    store's set has been called once for the key, and the store holds the
    value under the key. *)
Theorem get_miss_populates env key w :
  get_fault env key = None →
  store w !! key = None →
  populate_calls key (snd (get env key outcome w)) = S (populate_calls key w)
  ∧ (∀ t v,
       config_populate env key = Responds t (SigOk v) →
       t ≤ populateTimeout env →
       set_fault env key v = None →
       let w' :=
         write key v
           (log (EvCacheSet key v)
              (log (EvUserPopulate key) (log (EvCacheGet key) w))) in
       (∀ R (cb : Callback R), get env key cb w = cb (SigOk v) w')
       ∧ populate_calls key w' = S (populate_calls key w)
       ∧ count (is_cache_set key) w' = S (count (is_cache_set key) w)
       ∧ store w' !! key = Some v).
Proof.
  intros Hread Habsent.
  assert (∀ R (cb : Callback R),
             get env key cb w = populate env key cb (log (EvCacheGet key) w))
    as Hmiss.
  { intros R cb. rewrite (get_read_ok env key cb w Hread).
    by rewrite Habsent. }
  split.
  - rewrite Hmiss, populate_calls_user_once. by rewrite read_is_no_populate.
  - intros t v Hresponds Hintime Hset w'. split; [| split; [| split]].
    + intros R cb. rewrite Hmiss. by apply (populate_success env key cb _ t v).
    + subst w'. unfold populate_calls.
      rewrite count_write, !count_log, is_user_populate_same. simpl. lia.
    + subst w'. rewrite count_write, !count_log, is_cache_set_same.
      simpl. lia.
    + subst w'. simpl. apply lookup_insert_eq.
Qed.

Lemma get_miss_populates_witness :
  let env := sample_env (λ _, Responds 5 (SigOk (VStr "v1"))) lockr in
  fst (get env "k" outcome empty_world) = SigOk (VStr "v1")
  ∧ store (snd (get env "k" outcome empty_world)) !! "k" = Some (VStr "v1")
  ∧ populate_calls "k" (snd (get env "k" outcome empty_world)) = 1%nat.
Proof.
  intros env.
  destruct (get_miss_populates env "k" empty_world) as (Honce & Hvalue).
  - reflexivity.
  - vm_compute. reflexivity.
  - destruct (Hvalue 5 (VStr "v1")) as (Hcb & _ & _ & Hstore).
    + reflexivity.
    + vm_compute. discriminate.
    + reflexivity.
    + rewrite (Hcb _ outcome). split; [reflexivity |].
      split; [exact Hstore |]. vm_compute. reflexivity.
Defined.

(** C7, as the specification has it, fails.  A key whose entry is the
    empty string is present in the store, yet [get] calls the user's
    populate function once and answers with the populated value; so it is
    not true that every present key is answered from the store without
    population. *)
Lemma get_present_falsy_populates :
  let env := sample_env (λ _, Responds 5 (SigOk (VStr "fresh"))) lockr in
  let w := world_with "k" (VStr EmptyString) in
  store w !! "k" = Some (VStr EmptyString)
  ∧ fst (get env "k" outcome w) = SigOk (VStr "fresh")
  ∧ populate_calls "k" w = 0%nat
  ∧ populate_calls "k" (snd (get env "k" outcome w)) = 1%nat
  ∧ ¬ (∀ env key v w,
          store w !! key = Some v →
          get_fault env key = None →
          fst (get env key outcome w) = SigOk v
          ∧ populate_calls key (snd (get env key outcome w))
            = populate_calls key w).
Proof.
  intros env w.
  split; [vm_compute; reflexivity |].
  split; [vm_compute; reflexivity |].
  split; [vm_compute; reflexivity |].
  split; [vm_compute; reflexivity |].
  intros Hclaim.
  destruct (Hclaim env "k" (VStr EmptyString) w) as (_ & Hcalls).
  - vm_compute. reflexivity.
  - reflexivity.
  - vm_compute in Hcalls. discriminate Hcalls.
Qed.

(** C7, amended.  For a key whose stored value is truthy, [get] answers
    with the stored value straight after the read: the user's populate
    function has not been called, no lease has been asked for, and the
    store is what it was. *)
Theorem get_hit_returns_stored env key v w :
  store w !! key = Some v →
  truthy v = true →
  get_fault env key = None →
  let w' := log (EvCacheGet key) w in
  (∀ R (cb : Callback R), get env key cb w = cb (SigOk v) w')
  ∧ (∀ k, populate_calls k w' = populate_calls k w)
  ∧ lease_requests w' = lease_requests w
  ∧ store w' = store w.
Proof.
  intros Hstored Htruthy Hread w'. split; [| split; [| split]].
  - intros R cb. rewrite (get_read_ok env key cb w Hread), Hstored.
    simpl. by rewrite Htruthy.
  - intros k. apply read_is_no_populate.
  - apply read_is_no_request.
  - reflexivity.
Qed.

Lemma get_hit_returns_stored_witness :
  let env := sample_env (λ _, Responds 5 (SigOk (VStr "fresh"))) lockr in
  get env "k" outcome (world_with "k" (VStr "v0"))
  = (SigOk (VStr "v0"), log (EvCacheGet "k") (world_with "k" (VStr "v0"))).
Proof.
  intros env.
  destruct (get_hit_returns_stored env "k" (VStr "v0")
              (world_with "k" (VStr "v0")))
    as (Hcb & _).
  - vm_compute. reflexivity.
  - reflexivity.
  - reflexivity.
  - apply (Hcb _ outcome).
Defined.

(** C10.  After a successful read, [get] goes by the truthiness of what
    the store returned.  A falsy value, stored or standing for a missing
    entry, is a miss: [get] hands over to the populator, which calls the
    user's populate function once.  Only a truthy value is answered
    without population.  The empty string, 0, false and null are all
    falsy. *)
Theorem get_falsy_is_miss env key w :
  get_fault env key = None →
  let stored := default VNull (store w !! key) in
  let w1 := log (EvCacheGet key) w in
  (truthy stored = false →
   (∀ R (cb : Callback R), get env key cb w = populate env key cb w1)
   ∧ populate_calls key (snd (get env key outcome w))
     = S (populate_calls key w))
  ∧ (truthy stored = true →
     (∀ R (cb : Callback R), get env key cb w = cb (SigOk stored) w1)
     ∧ populate_calls key (snd (get env key outcome w))
       = populate_calls key w)
  ∧ truthy (VStr EmptyString) = false
  ∧ truthy (VNum 0) = false
  ∧ truthy (VBool false) = false
  ∧ truthy VNull = false.
Proof.
  intros Hread stored w1.
  assert (∀ R (cb : Callback R),
             get env key cb w
             = if truthy stored then cb (SigOk stored) w1
               else populate env key cb w1) as Hget
    by (intros R cb; by apply get_read_ok).
  split; [| split; [| by repeat split]].
  - intros Hfalsy. rewrite Hfalsy in Hget. split; [exact Hget |].
    rewrite Hget, populate_calls_user_once. subst w1.
    by rewrite read_is_no_populate.
  - intros Htruthy. rewrite Htruthy in Hget. split; [exact Hget |].
    rewrite Hget. simpl. apply read_is_no_populate.
Qed.

Lemma get_falsy_is_miss_witness :
  let env := sample_env (λ _, Responds 5 (SigOk (VStr "fresh"))) lockr in
  populate_calls "k" (snd (get env "k" outcome (world_with "k" (VBool false))))
  = 1%nat.
Proof.
  intros env.
  destruct (get_falsy_is_miss env "k" (world_with "k" (VBool false)))
    as (Hfalsy & _).
  - reflexivity.
  - destruct Hfalsy as (_ & Hcalls).
    + vm_compute. reflexivity.
    + rewrite Hcalls. vm_compute. reflexivity.
Defined.

(** ** The facade: stale events *)

Lemma fst_outcome s w : fst (outcome s w) = s.
Proof. reflexivity. Qed.

Lemma snd_outcome s w : snd (outcome s w) = w.
Proof. reflexivity. Qed.

Lemma emitted_write key v w : emitted (write key v w) = emitted w.
Proof. reflexivity. Qed.

Lemma emitted_take_lease name w : emitted (take_lease name w) = emitted w.
Proof. reflexivity. Qed.

Lemma emitted_unlock name w : emitted (unlock name w) = emitted w.
Proof.
  change (emitted (log (EvLeaseRelease name) w) = emitted w).
  rewrite emitted_log. simpl. by rewrite app_nil_r.
Qed.

Lemma populate_emits_nothing env key w :
  emitted (snd (populate env key outcome w)) = emitted w.
Proof.
  unfold populate, waterfall, completeWithin, set, outcome.
  split_cases; cbn [fst snd];
    rewrite ?emitted_write, ?emitted_log; simpl; by rewrite ?app_nil_r.
Qed.

Lemma leasedPopulate_emits_nothing env key w :
  emitted (snd (leasedPopulate env key outcome w)) = emitted w.
Proof.
  destruct (coordinator env (nsp env +:+ key) (held w)) as [|err] eqn:Hreply.
  - rewrite (leasedPopulate_granted env key outcome w Hreply).
    pose proof (populate_emits_nothing env key
                  (take_lease (nsp env +:+ key)
                     (log (EvLeaseAcquire (nsp env +:+ key)) w))) as Hpop.
    destruct (fst (populate env key outcome _));
      rewrite snd_outcome, ?emitted_unlock, Hpop, emitted_take_lease,
        emitted_log;
      simpl; by rewrite app_nil_r.
  - rewrite (leasedPopulate_denied env key outcome w err Hreply).
    unfold outcome; simpl. rewrite emitted_log. simpl. by rewrite app_nil_r.
Qed.

Lemma leasedPopulate_requests_once env key w :
  lease_requests (snd (leasedPopulate env key outcome w))
  = S (lease_requests w).
Proof.
  destruct (coordinator env (nsp env +:+ key) (held w)) as [|err] eqn:Hreply.
  - rewrite (leasedPopulate_granted env key outcome w Hreply).
    pose proof (populate_leases env key
                  (take_lease (nsp env +:+ key)
                     (log (EvLeaseAcquire (nsp env +:+ key)) w)))
      as (_ & Hreq & _).
    assert (lease_requests
              (take_lease (nsp env +:+ key)
                 (log (EvLeaseAcquire (nsp env +:+ key)) w))
            = S (lease_requests w)) as Hone.
    { unfold lease_requests. rewrite count_take_lease, count_log.
      simpl. lia. }
    destruct (fst (populate env key outcome _)); rewrite snd_outcome.
    + by rewrite Hreq.
    + unfold unlock, lease_requests.
      rewrite count_drop_lease, count_log. simpl.
      unfold lease_requests in Hreq, Hone. rewrite Hreq, Hone. lia.
  - rewrite (leasedPopulate_denied env key outcome w err Hreply).
    unfold outcome, lease_requests; simpl. rewrite count_log. simpl. lia.
Qed.

(** C8.  The stale-event handler is [leasedPopulate] with the error sink
    as its callback.  It asks for the lease once and yields a world and no
    signal: an error that [leasedPopulate] signals is appended to the
    errors emitted on the sink, a success leaves the world as
    [leasedPopulate] left it, whatever the populated value. *)
Theorem onStaleEvent_errors_to_sink env key w :
  let s := fst (leasedPopulate env key outcome w) in
  let w1 := snd (leasedPopulate env key outcome w) in
  _onStaleEvent env key w = leasedPopulate env key _emitError w
  ∧ _onStaleEvent env key w
    = match s with
      | SigErr err => log (EvErrorEmitted err) w1
      | SigOk _ => w1
      end
  ∧ emitted (_onStaleEvent env key w)
    = (emitted w ++ match s with SigErr err => [err] | SigOk _ => [] end)%list
  ∧ lease_requests (_onStaleEvent env key w) = S (lease_requests w).
Proof.
  intros s w1.
  assert (_onStaleEvent env key w
          = match s with
            | SigErr err => log (EvErrorEmitted err) w1
            | SigOk _ => w1
            end) as Hrun.
  { unfold _onStaleEvent. rewrite leasedPopulate_once. fold s w1.
    by destruct s. }
  split; [reflexivity | split; [exact Hrun | split]].
  - rewrite Hrun. subst w1. destruct s as [err|v].
    + by rewrite emitted_log, leasedPopulate_emits_nothing.
    + by rewrite leasedPopulate_emits_nothing, app_nil_r.
  - rewrite Hrun. subst w1. destruct s as [err|v].
    + unfold lease_requests. rewrite count_log. simpl.
      fold (lease_requests (snd (leasedPopulate env key outcome w))).
      rewrite leasedPopulate_requests_once. unfold lease_requests. lia.
    + apply leasedPopulate_requests_once.
Qed.

(** * Further properties of the operations *)

(** ** What a run of the populator does to the world *)

(** The populator has three ways to end: with a value, after the user's
    function was called and the value written; with an error before any
    write was attempted; or with the store's error after the write was
    attempted and refused. *)
Lemma populate_effect env key w :
  let called := log (EvUserPopulate key) w in
  match fst (populate env key outcome w) with
  | SigOk v =>
      snd (populate env key outcome w)
      = write key v (log (EvCacheSet key v) called)
  | SigErr e =>
      snd (populate env key outcome w) = called
      ∨ ∃ v, set_fault env key v = Some e
             ∧ snd (populate env key outcome w) = log (EvCacheSet key v) called
  end.
Proof.
  unfold populate, waterfall, completeWithin, set, outcome.
  destruct (config_populate env key) as [e|t [e|v]|]; simpl;
    try destruct (t <=? populateTimeout env); simpl;
    try destruct (set_fault env key v) eqn:Hset; simpl; eauto.
Qed.

Lemma is_user_populate_other k key :
  is_user_populate k (EvUserPopulate key) = bool_decide (key = k).
Proof. reflexivity. Qed.

Lemma populate_calls_log_user k key w :
  populate_calls k (log (EvUserPopulate key) w)
  = (populate_calls k w + if bool_decide (key = k) then 1 else 0)%nat.
Proof. unfold populate_calls. by rewrite count_log. Qed.

Lemma populate_calls_log_set k key v w :
  populate_calls k (log (EvCacheSet key v) w) = populate_calls k w.
Proof. unfold populate_calls. rewrite count_log. simpl. lia. Qed.

Lemma store_writes_log_user key w :
  store_writes (log (EvUserPopulate key) w) = store_writes w.
Proof. unfold store_writes. rewrite count_log. simpl. lia. Qed.

Lemma store_writes_log_set key v w :
  store_writes (log (EvCacheSet key v) w) = S (store_writes w).
Proof. unfold store_writes. rewrite count_log. simpl. lia. Qed.

Lemma store_writes_log_read key w :
  store_writes (log (EvCacheGet key) w) = store_writes w.
Proof. unfold store_writes. rewrite count_log. simpl. lia. Qed.

(** The user's function is called once, for the key asked for and for no
    other. *)
Lemma populate_calls_after_populate env key k w :
  populate_calls k (snd (populate env key outcome w))
  = (populate_calls k w + if bool_decide (key = k) then 1 else 0)%nat.
Proof.
  pose proof (populate_effect env key w) as Heff. simpl in Heff.
  destruct (fst (populate env key outcome w)) as [e|v].
  - destruct Heff as [-> | (v & _ & ->)].
    + apply populate_calls_log_user.
    + by rewrite populate_calls_log_set, populate_calls_log_user.
  - rewrite Heff. unfold populate_calls at 1. rewrite count_write.
    fold (populate_calls k (log (EvCacheSet key v) (log (EvUserPopulate key) w))).
    by rewrite populate_calls_log_set, populate_calls_log_user.
Qed.

Lemma store_writes_after_populate env key w :
  (store_writes (snd (populate env key outcome w)) ≤ S (store_writes w))%nat.
Proof.
  pose proof (populate_effect env key w) as Heff. simpl in Heff.
  destruct (fst (populate env key outcome w)) as [e|v].
  - destruct Heff as [-> | (v & _ & ->)].
    + rewrite store_writes_log_user. lia.
    + rewrite store_writes_log_set, store_writes_log_user. lia.
  - rewrite Heff. unfold store_writes at 1. rewrite count_write.
    fold (store_writes (log (EvCacheSet key v) (log (EvUserPopulate key) w))).
    rewrite store_writes_log_set, store_writes_log_user. lia.
Qed.

Lemma store_after_populate env key w :
  store (snd (populate env key outcome w))
  = match fst (populate env key outcome w) with
    | SigOk v => <[key := v]> (store w)
    | SigErr _ => store w
    end.
Proof.
  pose proof (populate_effect env key w) as Heff. simpl in Heff.
  destruct (fst (populate env key outcome w)) as [e|v].
  - by destruct Heff as [-> | (v & _ & ->)].
  - by rewrite Heff.
Qed.

(** X3.  For a user function that throws an Error before calling back,
    calls back once with [cb(err)] or [cb(null, value)], or never calls
    back.  The populator calls the store's set exactly when the user's
    function has yielded a value in time, and then once, after the user's
    function, for its own key and with that value; if the store takes the
    write, the populator signals the value and the store holds it.  When
    set is not called, the only event is the call of the user's function,
    the store is what it was, and an error is signalled.  Whenever a value
    is signalled the store holds it under the key.  Set is never called
    for another key. *)
Theorem populate_set_calls env key w :
  let s := fst (populate env key outcome w) in
  let w' := snd (populate env key outcome w) in
  (count (is_cache_set key) w' = S (count (is_cache_set key) w)
   ↔ ∃ t v, config_populate env key = Responds t (SigOk v)
            ∧ t ≤ populateTimeout env)
  ∧ (∀ t v,
       config_populate env key = Responds t (SigOk v) →
       t ≤ populateTimeout env →
       trace w' = (trace w ++ [EvUserPopulate key; EvCacheSet key v])%list
       ∧ (set_fault env key v = None →
          s = SigOk v ∧ store w' = <[key := v]> (store w)))
  ∧ (count (is_cache_set key) w' = count (is_cache_set key) w →
     trace w' = (trace w ++ [EvUserPopulate key])%list
     ∧ store w' = store w
     ∧ ∃ e, s = SigErr e)
  ∧ (∀ v, s = SigOk v →
       store w' !! key = Some v
       ∧ count (is_cache_set key) w' = S (count (is_cache_set key) w))
  ∧ (store_writes w' ≤ S (store_writes w))%nat
  ∧ (∀ k, k ≠ key → count (is_cache_set k) w' = count (is_cache_set k) w).
Proof.
  intros s w'. subst s w'.
  assert (∀ k v, k ≠ key → is_cache_set k (EvCacheSet key v) = false) as Hno
    by (intros k v Hk; simpl; by apply bool_decide_eq_false).
  unfold populate, waterfall, completeWithin, set, outcome, store_writes.
  destruct (config_populate env key) as [e|t [e|v]|] eqn:Hb; simpl.
  - rewrite !count_log. simpl.
    split; [split; [lia | by intros (t & v & Habs & _)] |].
    split; [by intros t v Habs |].
    split; [intros _; eauto |].
    split; [by intros v Habs |].
    split; [lia |]. intros k Hk. rewrite count_log. simpl. lia.
  - destruct (t <=? populateTimeout env); simpl; rewrite !count_log; simpl.
    all: split; [split; [lia | by intros (t' & v & Habs & _)] |].
    all: split; [by intros t' v Habs |].
    all: split; [intros _; eauto |].
    all: split; [by intros v Habs |].
    all: split; [lia |]; intros k Hk; rewrite count_log; simpl; lia.
  - destruct (t <=? populateTimeout env) eqn:Ht; simpl.
    + apply Z.leb_le in Ht.
      destruct (set_fault env key v) as [e|] eqn:Hset; simpl;
        rewrite ?count_write, !count_log, ?is_cache_set_same; simpl.
      * split; [split; [intros _; eauto | intros _; lia] |].
        split.
        { intros t' v' [= <- <-] _. split; [by rewrite <- app_assoc |].
          intros Hnone. congruence. }
        split; [intros Habs; lia |].
        split; [by intros v' Habs |].
        split; [lia |]. intros k Hk.
        rewrite !count_log, (Hno k v Hk). simpl. lia.
      * split; [split; [intros _; eauto | intros _; lia] |].
        split.
        { intros t' v' [= <- <-] _. split; [by rewrite <- app_assoc | done]. }
        split; [intros Habs; lia |].
        split.
        { intros v' [= <-]. split; [apply lookup_insert_eq | lia]. }
        split; [lia |]. intros k Hk.
        rewrite count_write, !count_log, (Hno k v Hk). simpl. lia.
    + apply Z.leb_gt in Ht. rewrite !count_log. simpl.
      split.
      { split; [lia |]. intros (t' & v' & [= <- <-] & Hle). lia. }
      split; [intros t' v' [= <- <-] Hle; lia |].
      split; [intros _; eauto |].
      split; [by intros v' Habs |].
      split; [lia |]. intros k Hk. rewrite count_log. simpl. lia.
  - rewrite !count_log. simpl.
    split; [split; [lia | by intros (t & v & Habs & _)] |].
    split; [by intros t v Habs |].
    split; [intros _; eauto |].
    split; [by intros v Habs |].
    split; [lia |]. intros k Hk. rewrite count_log. simpl. lia.
Qed.



(** ** What a run of get does to the world *)

Lemma get_read_failed {R} env key (cb : Callback R) w e :
  get_fault env key = Some e →
  get env key cb w = cb (SigErr e) (log (EvCacheGet key) w).
Proof. intros Hfault. unfold get, waterfall, cache_get. by rewrite Hfault. Qed.

(** The three ways of [get]: the read fails, the read gives a truthy
    value, or the populator takes over after the read. *)
Lemma get_effect env key w :
  let read := log (EvCacheGet key) w in
  let stored := default VNull (store w !! key) in
  match get_fault env key with
  | Some e => get env key outcome w = (SigErr e, read)
  | None =>
      if truthy stored then get env key outcome w = (SigOk stored, read)
      else get env key outcome w = populate env key outcome read
  end.
Proof.
  intros read stored. destruct (get_fault env key) as [e|] eqn:Hfault.
  - by apply get_read_failed.
  - rewrite (get_read_ok env key outcome w Hfault). fold stored read.
    by destruct (truthy stored).
Qed.

(** X1.  When the store's read fails, [get] hands the store's error to
    its callback as it is and stops there: the user's populate function is
    not called, nothing is written, and the store is what it was. *)
Theorem get_read_failure env key w e :
  get_fault env key = Some e →
  let w' := log (EvCacheGet key) w in
  (∀ R (cb : Callback R), get env key cb w = cb (SigErr e) w')
  ∧ (∀ k, populate_calls k w' = populate_calls k w)
  ∧ store_writes w' = store_writes w
  ∧ store w' = store w.
Proof.
  intros Hfault w'. split; [| split; [| split]].
  - intros R cb. by apply get_read_failed.
  - intros k. apply read_is_no_populate.
  - apply store_writes_log_read.
  - reflexivity.
Qed.

Lemma get_read_failure_witness :
  let env :=
    {| nsp := "cache:"; populateTimeout := 30000; leaseExpiresIn := 300;
       config_populate := λ _, Responds 5 (SigOk (VStr "v1"));
       get_fault := λ _, Some boom;
       set_fault := λ _ _, None;
       coordinator := lockr;
       timeout_message := "timed out" |} in
  get env "k" outcome empty_world
  = (SigErr boom, log (EvCacheGet "k") empty_world).
Proof.
  intros env.
  destruct (get_read_failure env "k" empty_world boom) as (Hcb & _).
  - reflexivity.
  - apply (Hcb _ outcome).
Defined.

(** X4.  [get] never touches a lease and never reports to the error
    sink, whichever way it goes: the leases held, the number of leases
    asked for and released, and the errors emitted are what they were. *)
Theorem get_never_leases env key w :
  let w' := snd (get env key outcome w) in
  held w' = held w
  ∧ lease_requests w' = lease_requests w
  ∧ lease_releases w' = lease_releases w
  ∧ emitted w' = emitted w.
Proof.
  intros w'. subst w'.
  assert (emitted (log (EvCacheGet key) w) = emitted w) as Hquiet
    by (rewrite emitted_log; simpl; by rewrite app_nil_r).
  assert (lease_releases (log (EvCacheGet key) w) = lease_releases w) as Hrel
    by (unfold lease_releases; rewrite count_log; simpl; lia).
  pose proof (get_effect env key w) as Heff. simpl in Heff.
  destruct (get_fault env key) as [e|].
  - rewrite Heff. simpl. by rewrite read_is_no_request.
  - destruct (truthy _).
    + rewrite Heff. simpl. by rewrite read_is_no_request.
    + rewrite Heff.
      pose proof (populate_leases env key (log (EvCacheGet key) w))
        as (Hheld & Hreq & Hrel').
      simpl in Hheld, Hreq, Hrel'.
      rewrite Hheld, Hreq, Hrel', populate_emits_nothing.
      by rewrite read_is_no_request.
Qed.

Lemma get_answer_stored env key w v :
  fst (get env key outcome w) = SigOk v →
  store (snd (get env key outcome w)) !! key = Some v.
Proof.
  pose proof (get_effect env key w) as Heff. simpl in Heff.
  destruct (get_fault env key) as [e|].
  - rewrite Heff. discriminate.
  - destruct (truthy (default VNull (store w !! key))) eqn:Htruthy.
    + rewrite Heff. simpl. intros [= <-].
      destruct (store w !! key) as [x|]; [done | discriminate Htruthy].
    + rewrite Heff. intros Hok.
      rewrite store_after_populate, Hok. apply lookup_insert_eq.
Qed.

(** A falsy answer of [get] has always just been populated. *)
Lemma get_falsy_answer_populated env key w v :
  fst (get env key outcome w) = SigOk v →
  truthy v = false →
  populate_calls key (snd (get env key outcome w)) = S (populate_calls key w).
Proof.
  pose proof (get_effect env key w) as Heff. simpl in Heff.
  destruct (get_fault env key) as [e|].
  - rewrite Heff. discriminate.
  - destruct (truthy (default VNull (store w !! key))) eqn:Htruthy.
    + rewrite Heff. simpl. intros [= <-]. congruence.
    + rewrite Heff. intros _ _.
      rewrite populate_calls_after_populate, read_is_no_populate.
      rewrite bool_decide_eq_true_2 by done. lia.
Qed.

(** X5.  Whenever [get] answers with a value, the store holds that value
    under the key when the callback fires, whether the value was read or
    has just been populated; and a falsy answer is never one that was
    read: the user's populate function was called in that very run. *)
Theorem get_success_is_stored env key w v :
  fst (get env key outcome w) = SigOk v →
  store (snd (get env key outcome w)) !! key = Some v
  ∧ (truthy v = false →
     populate_calls key (snd (get env key outcome w))
     = S (populate_calls key w)).
Proof.
  intros Hok. split.
  - by apply get_answer_stored.
  - by apply get_falsy_answer_populated.
Qed.

Lemma get_success_is_stored_witness :
  let env := sample_env (λ _, Responds 5 (SigOk (VNum 7))) lockr in
  store (snd (get env "k" outcome empty_world)) !! "k" = Some (VNum 7).
Proof.
  intros env.
  destruct (get_success_is_stored env "k" empty_world (VNum 7))
    as (Hstored & _).
  - vm_compute. reflexivity.
  - exact Hstored.
Defined.

(** X6.  After [get] has answered with a truthy value, the next [get]
    for the key, its read succeeding, answers with the same value from
    the store: the user's populate function is not called again. *)
Theorem get_again_is_hit env key w v :
  get_fault env key = None →
  fst (get env key outcome w) = SigOk v →
  truthy v = true →
  let w1 := snd (get env key outcome w) in
  (∀ R (cb : Callback R),
      get env key cb w1 = cb (SigOk v) (log (EvCacheGet key) w1))
  ∧ populate_calls key (snd (get env key outcome w1)) = populate_calls key w1
  ∧ (populate_calls key (snd (get env key outcome w1))
     ≤ S (populate_calls key w))%nat.
Proof.
  intros Hread Hok Htruthy w1.
  assert (store w1 !! key = Some v) as Hstored
    by (by apply get_answer_stored).
  assert (∀ R (cb : Callback R),
             get env key cb w1 = cb (SigOk v) (log (EvCacheGet key) w1))
    as Hhit.
  { intros R cb. rewrite (get_read_ok env key cb w1 Hread), Hstored.
    simpl. by rewrite Htruthy. }
  split; [exact Hhit | split].
  - rewrite (Hhit _ outcome). simpl. apply read_is_no_populate.
  - rewrite (Hhit _ outcome). simpl. rewrite read_is_no_populate.
    subst w1. pose proof (get_effect env key w) as Heff. simpl in Heff.
    rewrite Hread in Heff.
    destruct (truthy (default VNull (store w !! key))).
    + rewrite Heff. simpl. rewrite read_is_no_populate. lia.
    + rewrite Heff, populate_calls_after_populate, read_is_no_populate.
      rewrite bool_decide_eq_true_2 by done. lia.
Qed.

Lemma get_again_is_hit_witness :
  let env := sample_env (λ _, Responds 5 (SigOk (VStr "v1"))) lockr in
  let w1 := snd (get env "k" outcome empty_world) in
  populate_calls "k" (snd (get env "k" outcome w1)) = 1%nat.
Proof.
  intros env w1.
  destruct (get_again_is_hit env "k" empty_world (VStr "v1"))
    as (_ & Hsame & _).
  - reflexivity.
  - vm_compute. reflexivity.
  - reflexivity.
  - fold w1 in Hsame. rewrite Hsame. vm_compute. reflexivity.
Defined.

(** X7.  A falsy value is never served from the store.  After [get] has
    answered with a falsy value, which it has just populated and stored,
    the next [get] for the key, its read succeeding, calls the user's
    populate function again. *)
Theorem get_falsy_populates_again env key w v :
  get_fault env key = None →
  fst (get env key outcome w) = SigOk v →
  truthy v = false →
  let w1 := snd (get env key outcome w) in
  store w1 !! key = Some v
  ∧ (∀ R (cb : Callback R),
        get env key cb w1 = populate env key cb (log (EvCacheGet key) w1))
  ∧ populate_calls key (snd (get env key outcome w1))
    = S (populate_calls key w1).
Proof.
  intros Hread Hok Hfalsy w1.
  assert (store w1 !! key = Some v) as Hstored by (by apply get_answer_stored).
  assert (∀ R (cb : Callback R),
             get env key cb w1 = populate env key cb (log (EvCacheGet key) w1))
    as Hmiss.
  { intros R cb. rewrite (get_read_ok env key cb w1 Hread), Hstored.
    simpl. by rewrite Hfalsy. }
  split; [exact Hstored | split; [exact Hmiss |]].
  rewrite Hmiss, populate_calls_after_populate, read_is_no_populate.
  rewrite bool_decide_eq_true_2 by done. lia.
Qed.

Lemma get_falsy_populates_again_witness :
  let env := sample_env (λ _, Responds 5 (SigOk (VNum 0))) lockr in
  let w1 := snd (get env "k" outcome empty_world) in
  store w1 !! "k" = Some (VNum 0)
  ∧ populate_calls "k" (snd (get env "k" outcome w1)) = 2%nat.
Proof.
  intros env w1.
  destruct (get_falsy_populates_again env "k" empty_world (VNum 0))
    as (Hstored & _ & Hagain).
  - reflexivity.
  - vm_compute. reflexivity.
  - reflexivity.
  - split; [exact Hstored |].
    fold w1 in Hagain. rewrite Hagain. vm_compute. reflexivity.
Defined.

(** ** What a run of the lease-guarded populator does to the world *)

(** The two ways of [leasedPopulate], by the coordinator's reply. *)
Lemma leasedPopulate_effect env key w :
  let lockKey := nsp env +:+ key in
  let populated :=
    populate env key outcome
      (take_lease lockKey (log (EvLeaseAcquire lockKey) w)) in
  leasedPopulate env key outcome w
  = match coordinator env lockKey (held w) with
    | Denied err =>
        (if includes max_retry_pattern (err_message err)
         then SigOk VUndefined
         else SigErr (LockError ("could not aquire lock for: " +:+ lockKey)
                        err),
         log (EvLeaseAcquire lockKey) w)
    | Granted =>
        match fst populated with
        | SigErr cause =>
            (SigErr (PopulateError
                       ("failed to populate " +:+ dquote +:+ lockKey
                          +:+ dquote) cause),
             snd populated)
        | SigOk value => (SigOk value, unlock lockKey (snd populated))
        end
    end.
Proof.
  intros lockKey populated.
  destruct (coordinator env lockKey (held w)) as [|err] eqn:Hreply.
  - rewrite (leasedPopulate_granted env key outcome w Hreply).
    fold lockKey populated. by destruct (fst populated).
  - by rewrite (leasedPopulate_denied env key outcome w err Hreply).
Qed.

(** X8.  Every error that [leasedPopulate] signals is one of two.  When
    the coordinator refused the lease, it is the LockError with the message
    "could not aquire lock for: " and the lease name, around the
    coordinator's own error, whose message does not match the retry-count
    pattern.  When the lease was granted, it is the PopulateError with the
    message "failed to populate" and the quoted lease name, around the very
    error that the populator signalled.  So the error always carries its
    cause as inner error and names the lease in its message. *)
Theorem leasedPopulate_error_classes env key w e :
  fst (leasedPopulate env key outcome w) = SigErr e →
  let lockKey := nsp env +:+ key in
  let populated :=
    populate env key outcome
      (take_lease lockKey (log (EvLeaseAcquire lockKey) w)) in
  match coordinator env lockKey (held w) with
  | Denied err =>
      e = LockError ("could not aquire lock for: " +:+ lockKey) err
      ∧ includes max_retry_pattern (err_message err) = false
  | Granted =>
      ∃ cause,
        fst populated = SigErr cause
        ∧ e = PopulateError
                ("failed to populate " +:+ dquote +:+ lockKey +:+ dquote)
                cause
  end
  ∧ (∃ cause, err_inner e = Some cause
              ∧ (coordinator env lockKey (held w) = Denied cause
                 ∨ fst populated = SigErr cause))
  ∧ (∃ a b, err_message e = a +:+ lockKey +:+ b).
Proof.
  intros Herr lockKey populated. rewrite leasedPopulate_effect in Herr.
  fold lockKey populated in Herr.
  destruct (coordinator env lockKey (held w)) as [|err].
  - destruct (fst populated) as [cause|v] eqn:Hpop; [| discriminate Herr].
    injection Herr as <-. split; [by exists cause |].
    split; [exists cause; split; [done | by right] |].
    by exists ("failed to populate " +:+ dquote), dquote.
  - destruct (includes max_retry_pattern (err_message err)) eqn:Hmatch;
      [discriminate Herr |].
    injection Herr as <-. split; [done |].
    split; [exists err; split; [done | by left] |].
    apply includes_suffix.
Qed.

Lemma leasedPopulate_error_classes_witness :
  let env := sample_env (λ _, Throws boom) lockr in
  ∃ cause,
    fst (populate env "k" outcome
           (take_lease "cache:k" (log (EvLeaseAcquire "cache:k") empty_world)))
    = SigErr cause
    ∧ mkError "PopulateError"
        ("failed to populate " +:+ dquote +:+ "cache:k" +:+ dquote)
        (Some (mkError "Error" "populate threw an error; cause: boom" None))
      = PopulateError
          ("failed to populate " +:+ dquote +:+ "cache:k" +:+ dquote) cause.
Proof.
  intros env.
  destruct (leasedPopulate_error_classes env "k" empty_world
              (mkError "PopulateError"
                 ("failed to populate " +:+ dquote +:+ "cache:k" +:+ dquote)
                 (Some (mkError "Error" "populate threw an error; cause: boom"
                          None))))
    as (Hclass & _).
  - vm_compute. reflexivity.
  - exact Hclass.
Defined.

Lemma populate_calls_granted k name w :
  populate_calls k (take_lease name (log (EvLeaseAcquire name) w))
  = populate_calls k w.
Proof.
  unfold populate_calls. rewrite count_take_lease, count_log. simpl. lia.
Qed.

Lemma populate_calls_unlock k name w :
  populate_calls k (unlock name w) = populate_calls k w.
Proof.
  unfold populate_calls, unlock. rewrite count_drop_lease, count_log.
  simpl. lia.
Qed.

Lemma store_writes_granted name w :
  store_writes (take_lease name (log (EvLeaseAcquire name) w))
  = store_writes w.
Proof.
  unfold store_writes. rewrite count_take_lease, count_log. simpl. lia.
Qed.

Lemma store_writes_unlock name w :
  store_writes (unlock name w) = store_writes w.
Proof.
  unfold store_writes, unlock. rewrite count_drop_lease, count_log.
  simpl. lia.
Qed.

(** The populate calls and store writes made by one run of
    [leasedPopulate]. *)
Lemma leasedPopulate_counts env key k w :
  let w' := snd (leasedPopulate env key outcome w) in
  populate_calls k w'
  = (populate_calls k w
     + match coordinator env (nsp env +:+ key) (held w) with
       | Granted => if bool_decide (key = k) then 1 else 0
       | Denied _ => 0
       end)%nat
  ∧ (store_writes w'
     ≤ store_writes w
       + match coordinator env (nsp env +:+ key) (held w) with
         | Granted => 1
         | Denied _ => 0
         end)%nat.
Proof.
  intros w'. subst w'. rewrite leasedPopulate_effect.
  destruct (coordinator env (nsp env +:+ key) (held w)) as [|err].
  - set (w0 := take_lease _ _).
    pose proof (populate_calls_after_populate env key k w0) as Hcalls.
    pose proof (store_writes_after_populate env key w0) as Hwrites.
    subst w0. rewrite populate_calls_granted in Hcalls.
    rewrite store_writes_granted in Hwrites.
    destruct (fst (populate env key outcome _)); simpl;
      rewrite ?populate_calls_unlock, ?store_writes_unlock; lia.
  - simpl. rewrite request_is_no_populate, request_is_no_write. lia.
Qed.

(** X9.  [leasedPopulate] calls the user's populate function exactly
    once if the lease is granted and not at all if it is refused, never
    for another key, and the store's set is called at most once, and only
    under a granted lease. *)
Theorem leasedPopulate_populates_iff_granted env key w :
  let w' := snd (leasedPopulate env key outcome w) in
  populate_calls key w'
  = (populate_calls key w
     + match coordinator env (nsp env +:+ key) (held w) with
       | Granted => 1
       | Denied _ => 0
       end)%nat
  ∧ (∀ k, k ≠ key → populate_calls k w' = populate_calls k w)
  ∧ (store_writes w'
     ≤ store_writes w
       + match coordinator env (nsp env +:+ key) (held w) with
         | Granted => 1
         | Denied _ => 0
         end)%nat.
Proof.
  intros w'. subst w'. split; [| split].
  - destruct (leasedPopulate_counts env key key w) as (Hcalls & _).
    rewrite Hcalls. rewrite bool_decide_eq_true_2 by done. done.
  - intros k Hother.
    destruct (leasedPopulate_counts env key k w) as (Hcalls & _).
    rewrite Hcalls. rewrite bool_decide_eq_false_2 by done.
    destruct (coordinator env _ _); lia.
  - by destruct (leasedPopulate_counts env key key w) as (_ & Hwrites).
Qed.

(** X10.  [leasedPopulate] touches no lease but its own.  A refusal
    leaves the held leases as they were; a granted lease is released
    again when the populator succeeds and stays held when it fails. *)
Theorem leasedPopulate_lease_effect env key w :
  let lockKey := nsp env +:+ key in
  let populated :=
    populate env key outcome
      (take_lease lockKey (log (EvLeaseAcquire lockKey) w)) in
  let w' := snd (leasedPopulate env key outcome w) in
  held w' = match coordinator env lockKey (held w) with
            | Denied _ => held w
            | Granted =>
                if is_ok (fst populated) then held w ∖ {[lockKey]}
                else {[lockKey]} ∪ held w
            end
  ∧ (∀ name, name ≠ lockKey → name ∈ held w' ↔ name ∈ held w).
Proof.
  intros lockKey populated w'.
  assert (held w' = match coordinator env lockKey (held w) with
                    | Denied _ => held w
                    | Granted =>
                        if is_ok (fst populated) then held w ∖ {[lockKey]}
                        else {[lockKey]} ∪ held w
                    end) as Hheld.
  { subst w'. rewrite leasedPopulate_effect. fold lockKey populated.
    pose proof (populate_leases env key
                  (take_lease lockKey (log (EvLeaseAcquire lockKey) w)))
      as (Hsame & _).
    fold populated in Hsame. simpl in Hsame.
    destruct (coordinator env lockKey (held w)); [| done].
    destruct (fst populated); simpl; rewrite Hsame; [done |].
    apply set_eq. intros x.
    rewrite !elem_of_difference, elem_of_union. tauto. }
  split; [exact Hheld |].
  intros name Hother. rewrite Hheld.
  destruct (coordinator env lockKey (held w)); [| done].
  destruct (is_ok (fst populated)).
  - rewrite elem_of_difference, elem_of_singleton. tauto.
  - rewrite elem_of_union, elem_of_singleton. tauto.
Qed.

(** ** Only the key asked for is written *)

Lemma store_after_get env key w :
  store (snd (get env key outcome w)) = store w
  ∨ ∃ v, store (snd (get env key outcome w)) = <[key := v]> (store w).
Proof.
  pose proof (get_effect env key w) as Heff. simpl in Heff.
  destruct (get_fault env key) as [e|].
  - left. by rewrite Heff.
  - destruct (truthy _).
    + left. by rewrite Heff.
    + rewrite Heff, store_after_populate.
      destruct (fst (populate env key outcome _)) as [e|v]; eauto.
Qed.

Lemma store_after_leasedPopulate env key w :
  store (snd (leasedPopulate env key outcome w)) = store w
  ∨ ∃ v, store (snd (leasedPopulate env key outcome w))
         = <[key := v]> (store w).
Proof.
  rewrite leasedPopulate_effect.
  destruct (coordinator env _ _) as [|err]; [| by left].
  set (w0 := take_lease _ _).
  pose proof (store_after_populate env key w0) as Hstore.
  destruct (fst (populate env key outcome w0)) as [e|v]; simpl.
  - left. exact Hstore.
  - right. exists v. exact Hstore.
Qed.

Lemma onStaleEvent_run env key w :
  _onStaleEvent env key w
  = match fst (leasedPopulate env key outcome w) with
    | SigErr err =>
        log (EvErrorEmitted err) (snd (leasedPopulate env key outcome w))
    | SigOk _ => snd (leasedPopulate env key outcome w)
    end.
Proof.
  unfold _onStaleEvent. rewrite leasedPopulate_once.
  by destruct (fst (leasedPopulate env key outcome w)).
Qed.

Lemma store_after_onStaleEvent env key w :
  store (_onStaleEvent env key w)
  = store (snd (leasedPopulate env key outcome w)).
Proof.
  rewrite onStaleEvent_run.
  by destruct (fst (leasedPopulate env key outcome w)).
Qed.

(** X11.  No operation writes under a key it was not asked for: after
    [populate], [get], [leasedPopulate] or a stale event for [key], every
    other key reads as it did before. *)
Theorem other_keys_untouched env key k w :
  k ≠ key →
  store (snd (populate env key outcome w)) !! k = store w !! k
  ∧ store (snd (get env key outcome w)) !! k = store w !! k
  ∧ store (snd (leasedPopulate env key outcome w)) !! k = store w !! k
  ∧ store (_onStaleEvent env key w) !! k = store w !! k.
Proof.
  intros Hother.
  assert (∀ m : gmap string JsVal,
             m = store w ∨ (∃ v, m = <[key := v]> (store w)) →
             m !! k = store w !! k) as Hframe.
  { intros m [-> | [v ->]]; [done |]. by apply lookup_insert_ne. }
  split; [| split; [| split]].
  - apply Hframe. rewrite store_after_populate.
    destruct (fst (populate env key outcome w)) as [e|v]; eauto.
  - apply Hframe, store_after_get.
  - apply Hframe, store_after_leasedPopulate.
  - rewrite store_after_onStaleEvent.
    apply Hframe, store_after_leasedPopulate.
Qed.

Lemma other_keys_untouched_witness :
  let env := sample_env (λ _, Responds 5 (SigOk (VStr "v1"))) lockr in
  store (_onStaleEvent env "k" (world_with "other" (VNum 1))) !! "other"
  = Some (VNum 1).
Proof.
  intros env.
  destruct (other_keys_untouched env "k" "other" (world_with "other" (VNum 1)))
    as (_ & _ & _ & Hstale).
  - discriminate.
  - rewrite Hstale. vm_compute. reflexivity.
Defined.

(** ** The order of a successful repopulation *)

(** X12.  When the lease is granted, the user's function yields a value
    in time and the store takes it, [leasedPopulate] does four things in
    this order and nothing else: it asks for the lease, calls the user's
    function, calls the store's set, and releases the lease.  The write
    lies inside the lease, the callback gets the value, and the store
    holds it. *)
Theorem leasedPopulate_success_trace env key w t v :
  coordinator env (nsp env +:+ key) (held w) = Granted →
  config_populate env key = Responds t (SigOk v) →
  t ≤ populateTimeout env →
  set_fault env key v = None →
  let lockKey := nsp env +:+ key in
  ∃ w',
    (∀ R (cb : Callback R), leasedPopulate env key cb w = cb (SigOk v) w')
    ∧ trace w'
      = (trace w ++ [EvLeaseAcquire lockKey; EvUserPopulate key;
                     EvCacheSet key v; EvLeaseRelease lockKey])%list
    ∧ store w' = <[key := v]> (store w)
    ∧ held w' = held w ∖ {[lockKey]}.
Proof.
  intros Hgranted Hresponds Hintime Hset lockKey.
  set (w0 := take_lease lockKey (log (EvLeaseAcquire lockKey) w)).
  assert (populate env key outcome w0
          = (SigOk v,
             write key v (log (EvCacheSet key v) (log (EvUserPopulate key) w0))))
    as Hpop by (by apply (populate_success env key outcome w0 t v)).
  exists (unlock lockKey
            (write key v (log (EvCacheSet key v) (log (EvUserPopulate key) w0)))).
  split; [| split; [| split]].
  - intros R cb. rewrite (leasedPopulate_granted env key cb w Hgranted).
    fold lockKey w0. by rewrite Hpop.
  - simpl. by rewrite <- !app_assoc.
  - reflexivity.
  - simpl. apply set_eq. intros x.
    rewrite !elem_of_difference, elem_of_union. tauto.
Qed.

Lemma leasedPopulate_success_trace_witness :
  let env := sample_env (λ _, Responds 5 (SigOk (VStr "v1"))) lockr in
  ∃ w',
    leasedPopulate env "k" outcome empty_world = (SigOk (VStr "v1"), w')
    ∧ trace w'
      = [EvLeaseAcquire "cache:k"; EvUserPopulate "k";
         EvCacheSet "k" (VStr "v1"); EvLeaseRelease "cache:k"].
Proof.
  intros env.
  destruct (leasedPopulate_success_trace env "k" empty_world 5 (VStr "v1"))
    as (w' & Hcb & Htrace & _).
  - vm_compute. reflexivity.
  - reflexivity.
  - vm_compute. discriminate.
  - reflexivity.
  - exists w'. split; [apply (Hcb _ outcome) | exact Htrace].
Defined.

(** ** Stale events *)

Lemma onStaleEvent_benign env key w err :
  coordinator env (nsp env +:+ key) (held w) = Denied err →
  includes max_retry_pattern (err_message err) = true →
  _onStaleEvent env key w = log (EvLeaseAcquire (nsp env +:+ key)) w.
Proof.
  intros Hdenied Hheld. unfold _onStaleEvent.
  rewrite (leasedPopulate_denied env key _emitError w err Hdenied).
  by rewrite Hheld.
Qed.

(** X14.  A stale event that meets a held lease is dropped in silence:
    when the coordinator refuses with an error matching the retry-count
    pattern, the handler leaves the world as it was but for the request
    itself, and nothing reaches the error sink. *)
Theorem onStaleEvent_contention_silent env key w err :
  coordinator env (nsp env +:+ key) (held w) = Denied err →
  includes max_retry_pattern (err_message err) = true →
  _onStaleEvent env key w = log (EvLeaseAcquire (nsp env +:+ key)) w
  ∧ emitted (_onStaleEvent env key w) = emitted w
  ∧ store (_onStaleEvent env key w) = store w
  ∧ held (_onStaleEvent env key w) = held w.
Proof.
  intros Hdenied Hheld.
  rewrite (onStaleEvent_benign env key w err Hdenied Hheld).
  split; [done | split; [| done]].
  rewrite emitted_log. simpl. by rewrite app_nil_r.
Qed.

Lemma onStaleEvent_contention_silent_witness :
  let env := sample_env (λ _, Responds 5 (SigOk (VStr "v1"))) lockr in
  emitted (_onStaleEvent env "k" (world_leased "cache:k")) = [].
Proof.
  intros env.
  destruct (onStaleEvent_contention_silent env "k" (world_leased "cache:k")
              (mkError "Error" "Exceeded max retry count" None))
    as (_ & Hquiet & _).
  - vm_compute. reflexivity.
  - vm_compute. reflexivity.
  - exact Hquiet.
Defined.

(** X13.  A failed repopulation holds back the next one.  With a
    coordinator that refuses a held lease with the retry-count error, a
    stale event whose populate fails emits one error and leaves the lease
    held; as long as the lease is held, the next stale event for the key
    is dropped: the user's populate function is not called and nothing
    more is emitted. *)
Theorem stale_event_after_failure_is_skipped env key w :
  (∀ name h, name ∈ h →
     ∃ e, coordinator env name h = Denied e
          ∧ includes max_retry_pattern (err_message e) = true) →
  coordinator env (nsp env +:+ key) (held w) = Granted →
  let lockKey := nsp env +:+ key in
  is_ok (fst (populate env key outcome
                (take_lease lockKey (log (EvLeaseAcquire lockKey) w))))
  = false →
  let w1 := _onStaleEvent env key w in
  let w2 := _onStaleEvent env key w1 in
  lockKey ∈ held w1
  ∧ length (emitted w1) = S (length (emitted w))
  ∧ w2 = log (EvLeaseAcquire lockKey) w1
  ∧ (∀ k, populate_calls k w2 = populate_calls k w1)
  ∧ emitted w2 = emitted w1.
Proof.
  intros Hcontract Hgranted lockKey Hfails w1 w2.
  assert (lockKey ∈ held w1 ∧ length (emitted w1) = S (length (emitted w)))
    as (Hheld & Hone).
  { subst w1. rewrite onStaleEvent_run.
    pose proof (leasedPopulate_emits_nothing env key w) as Hquiet.
    rewrite leasedPopulate_effect in *. fold lockKey in Hgranted, Hquiet |- *.
    rewrite Hgranted in Hquiet |- *.
    set (w0 := take_lease lockKey (log (EvLeaseAcquire lockKey) w)) in *.
    pose proof (populate_leases env key w0) as (Hsame & _).
    simpl in Hsame.
    destruct (fst (populate env key outcome w0)) as [cause|v];
      [| discriminate Hfails].
    simpl in Hquiet |- *. split.
    - rewrite Hsame. simpl. apply elem_of_union_l. by apply elem_of_singleton_2.
    - rewrite emitted_log, Hquiet, length_app. simpl. lia. }
  destruct (Hcontract lockKey (held w1) Hheld) as (e & Hdenied & Hmatch).
  assert (w2 = log (EvLeaseAcquire lockKey) w1) as Hskip
    by (by apply (onStaleEvent_benign env key w1 e)).
  split; [exact Hheld | split; [exact Hone | split; [exact Hskip | split]]].
  - intros k. rewrite Hskip. apply request_is_no_populate.
  - rewrite Hskip, emitted_log. simpl. by rewrite app_nil_r.
Qed.

Lemma stale_event_after_failure_is_skipped_witness :
  let env := sample_env (λ _, Throws boom) lockr in
  let w1 := _onStaleEvent env "k" empty_world in
  _onStaleEvent env "k" w1 = log (EvLeaseAcquire "cache:k") w1.
Proof.
  intros env w1.
  destruct (stale_event_after_failure_is_skipped env "k" empty_world)
    as (_ & _ & Hskip & _).
  - intros name h Hin.
    exists (mkError "Error" "Exceeded max retry count" None).
    split; [| vm_compute; reflexivity].
    simpl. unfold lockr. by rewrite bool_decide_eq_true_2.
  - vm_compute. reflexivity.
  - vm_compute. reflexivity.
  - exact Hskip.
Defined.

Lemma counts_log_emitted (p : Event → bool) e w :
  p (EvErrorEmitted e) = false → count p (log (EvErrorEmitted e) w) = count p w.
Proof. intros Hno. rewrite count_log, Hno. lia. Qed.

(** What one stale event adds to the world: one request for a lease, at
    most one emitted error, at most one write, and at most one call of the
    user's function, for the key of the event. *)
Lemma onStaleEvent_step env key w :
  let w' := _onStaleEvent env key w in
  lease_requests w' = S (lease_requests w)
  ∧ (length (emitted w') ≤ S (length (emitted w)))%nat
  ∧ (store_writes w' ≤ S (store_writes w))%nat
  ∧ (∀ k, (populate_calls k w ≤ populate_calls k w')%nat
          ∧ (populate_calls k w'
             ≤ populate_calls k w + if bool_decide (key = k) then 1 else 0)%nat).
Proof.
  intros w'. subst w'. rewrite onStaleEvent_run.
  pose proof (leasedPopulate_requests_once env key w) as Hreq.
  pose proof (leasedPopulate_emits_nothing env key w) as Hquiet.
  assert (store_writes (snd (leasedPopulate env key outcome w))
          ≤ S (store_writes w))%nat as Hwrites.
  { destruct (leasedPopulate_counts env key key w) as (_ & Hle).
    destruct (coordinator env _ _); lia. }
  assert (∀ k, (populate_calls k w
                ≤ populate_calls k (snd (leasedPopulate env key outcome w)))%nat
               ∧ (populate_calls k (snd (leasedPopulate env key outcome w))
                  ≤ populate_calls k w
                    + if bool_decide (key = k) then 1 else 0)%nat) as Hcalls.
  { intros k. destruct (leasedPopulate_counts env key k w) as (Heq & _).
    rewrite Heq. destruct (coordinator env _ _), (bool_decide _); lia. }
  destruct (fst (leasedPopulate env key outcome w)) as [err|v].
  - unfold lease_requests, store_writes, populate_calls in *.
    rewrite emitted_log, Hquiet, length_app. simpl.
    rewrite !counts_log_emitted by reflexivity.
    split; [done | split; [lia | split; [done |]]].
    intros k. rewrite counts_log_emitted by reflexivity. apply Hcalls.
  - rewrite Hquiet. split; [done | split; [lia | split; [done | exact Hcalls]]].
Qed.

(** X15.  Over any sequence of stale events, handled one after another,
    the handler asks for exactly one lease per event, emits at most one
    error per event, writes the store at most once per event, and calls
    the user's populate function for a key at most as often as the key
    occurs in the sequence, so never for a key that does not occur. *)
Theorem onStaleEvents_accounting env keys w :
  let w' := onStaleEvents env keys w in
  lease_requests w' = (lease_requests w + length keys)%nat
  ∧ (length (emitted w') ≤ length (emitted w) + length keys)%nat
  ∧ (store_writes w' ≤ store_writes w + length keys)%nat
  ∧ (∀ k, (populate_calls k w ≤ populate_calls k w')%nat
          ∧ (populate_calls k w'
             ≤ populate_calls k w
               + length (List.filter (λ key, bool_decide (key = k)) keys))%nat).
Proof.
  revert w. induction keys as [|key keys IH]; intros w w'; subst w'.
  - simpl. repeat split; lia.
  - change (onStaleEvents env (key :: keys) w)
      with (onStaleEvents env keys (_onStaleEvent env key w)).
    destruct (IH (_onStaleEvent env key w)) as (Hreq & Hemit & Hwr & Hcalls).
    destruct (onStaleEvent_step env key w) as (Hreq1 & Hemit1 & Hwr1 & Hcalls1).
    split; [| split; [| split]].
    + rewrite Hreq, Hreq1. simpl. lia.
    + simpl. lia.
    + simpl. lia.
    + intros k. destruct (Hcalls k) as (Hlo & Hhi).
      destruct (Hcalls1 k) as (Hlo1 & Hhi1).
      split; [lia |]. simpl.
      destruct (bool_decide (key = k)); simpl; lia.
Qed.

(** ** The further properties on concrete runs *)

Lemma populate_set_calls_witness :
  let env := sample_env (λ _, Responds 5 (SigOk (VStr "v1"))) lockr in
  trace (snd (populate env "k" outcome empty_world))
  = [EvUserPopulate "k"; EvCacheSet "k" (VStr "v1")]
  ∧ store (snd (populate env "k" outcome empty_world))
    = <[ "k" := VStr "v1" ]> ∅.
Proof.
  intros env.
  destruct (populate_set_calls env "k" empty_world) as (_ & Hset & _).
  destruct (Hset 5 (VStr "v1")) as (Htrace & Hstored).
  - reflexivity.
  - vm_compute. discriminate.
  - split; [exact Htrace |]. by destruct Hstored as (_ & Hstore).
Defined.

Lemma leasedPopulate_populates_iff_granted_witness :
  let env := sample_env (λ _, Responds 5 (SigOk (VStr "v1"))) lockr in
  populate_calls "other"
    (snd (leasedPopulate env "k" outcome empty_world))
  = populate_calls "other" empty_world.
Proof.
  intros env.
  destruct (leasedPopulate_populates_iff_granted env "k" empty_world)
    as (_ & Hothers & _).
  apply Hothers. discriminate.
Defined.

Lemma leasedPopulate_lease_effect_witness :
  let env := sample_env (λ _, Throws boom) lockr in
  "cache:other" ∈ held (snd (leasedPopulate env "k" outcome
                               (world_leased "cache:other"))).
Proof.
  intros env.
  destruct (leasedPopulate_lease_effect env "k" (world_leased "cache:other"))
    as (_ & Hothers).
  apply Hothers.
  - discriminate.
  - simpl. by apply elem_of_singleton_2.
Defined.
